(** * Contract analysis rule engine (app.py): shallow embedding and properties

    The Python source works on [str] values.  Here a text is a [string] whose
    characters are the code points below 256 (ASCII and the Latin-1
    supplement), on which [str.lower] acts character by character and keeps
    the length.  Python integers are unbounded, so counters are [nat]. *)

From Stdlib Require Import Bool Arith Lia List NArith Ascii String DecimalString.
From Stdlib Require Import ZArith.
Import ListNotations.
Open Scope string_scope.

(** ** Characters and the string primitives of Python used by the source *)

Module Py.

(** [str.isspace] on one character, which is also the class [\s] of [re] on
    [str] patterns: TAB..CR, FS..US, SPACE, NEL and NBSP below 256. *)
Definition isspace (c : ascii) : bool :=
  let n := N_of_ascii c in
  (((9 <=? n) && (n <=? 13)) || ((28 <=? n) && (n <=? 32))
   || (n =? 133) || (n =? 160))%N.

(** [str.lower] on one character: A..Z and the Latin-1 capitals (all of
    U+00C0..U+00DE but the multiplication sign) move up by 32. *)
Definition lower_char (c : ascii) : ascii :=
  let n := N_of_ascii c in
  if (((65 <=? n) && (n <=? 90))
      || ((192 <=? n) && (n <=? 222) && negb (n =? 215)))%N
  then ascii_of_N (n + 32) else c.

(** [s.lower()] *)
Fixpoint lower (s : string) : string :=
  match s with
  | EmptyString => EmptyString
  | String c s' => String (lower_char c) (lower s')
  end.

(** [pat in s]: [pat] starts at some position of [s]. *)
Fixpoint contains (pat s : string) : bool :=
  String.prefix pat s
  || match s with
     | EmptyString => false
     | String _ s' => contains pat s'
     end.

(** [s.lstrip()] *)
Fixpoint lstrip (s : string) : string :=
  match s with
  | EmptyString => EmptyString
  | String c s' => if isspace c then lstrip s' else s
  end.

(** [s.rstrip()] *)
Fixpoint rstrip (s : string) : string :=
  match s with
  | EmptyString => EmptyString
  | String c s' =>
      match rstrip s' with
      | EmptyString => if isspace c then EmptyString else String c EmptyString
      | r => String c r
      end
  end.

(** [s.strip()] *)
Definition strip (s : string) : string := rstrip (lstrip s).

(** [sep.join(l)] *)
Fixpoint join (sep : string) (l : list string) : string :=
  match l with
  | [] => EmptyString
  | [x] => x
  | x :: l' => x ++ sep ++ join sep l'
  end.

(** [str(n)] for a natural number. *)
Definition str (n : nat) : string := NilZero.string_of_uint (Nat.to_uint n).

Definition newline : ascii := "010"%char.

End Py.

(** ** The regular expression [\n\s*\n] and [re.split] *)

Module Re.

Import Py.

(** [match_tail s] matches [\s*\n] at the start of [s] the way the
    backtracking matcher does: the greedy star takes a white character
    first, and only when the rest fails is that character tried as the
    closing line break.  The result is what follows the match. *)
Fixpoint match_tail (s : string) : option string :=
  match s with
  | EmptyString => None
  | String c s' =>
      if isspace c then
        match match_tail s' with
        | Some r => Some r
        | None => if Ascii.eqb c newline then Some s' else None
        end
      else None
  end.

(** [match_at s]: the pattern [\n\s*\n] matched at the start of [s]. *)
Definition match_at (s : string) : option string :=
  match s with
  | EmptyString => None
  | String c s' => if Ascii.eqb c newline then match_tail s' else None
  end.

(** The scan of [re.split], from left to right.  At each position the
    pattern is tried: a match closes the current piece and the scan goes on
    after the match; otherwise the character belongs to the current piece.
    A match has at least two characters, so [fuel] equal to the length of
    the text is never used up. *)
Definition cons_first (c : ascii) (pieces : list string) : list string :=
  match pieces with
  | [] => [String c EmptyString]
  | p :: ps => String c p :: ps
  end.

Fixpoint split_from (fuel : nat) (s : string) : list string :=
  match s with
  | EmptyString => [EmptyString]
  | String c s' =>
      match fuel with
      | O => [s]
      | S fuel' =>
          match match_at s with
          | Some r => EmptyString :: split_from fuel' r
          | None => cons_first c (split_from fuel' s')
          end
      end
  end.

(** [re.split(r'\n\s*\n', text)] *)
Definition split (text : string) : list string :=
  split_from (String.length text) text.

End Re.

(** ** The functions of app.py *)

Import Py.

(** [split_clauses], lines 45-48. *)
Definition split_clauses (text : string) : list string :=
  let parts := Re.split text in
  map strip (filter (fun p => (40 <? String.length (strip p))%nat) parts).

(** [classify_contract], lines 51-61. *)
Definition classify_contract (text : string) : string :=
  let t := lower text in
  if contains "employee" t || contains "salary" t then "Employment Agreement"
  else if contains "lease" t || contains "rent" t then "Lease Agreement"
  else if contains "vendor" t || contains "supply" t then "Vendor Contract"
  else if contains "partner" t then "Partnership Agreement"
  else "Service Agreement".

(** [classify_intent], lines 72-80. *)
Definition classify_intent (clause : string) : string :=
  let c := lower clause in
  if contains "shall not" c || contains "must not" c || contains "prohibited" c
  then "Prohibition"
  else if contains "shall" c || contains "must" c then "Obligation"
  else if contains "may" c || contains "entitled to" c then "Right"
  else "Neutral".

(** [detect_ambiguity], lines 83-86. *)
Definition vague : list string :=
  ["reasonable"; "as soon as possible"; "etc"; "as appropriate";
   "from time to time"].

Definition detect_ambiguity (clause : string) : list string :=
  filter (fun w => contains w (lower clause)) vague.

(** [detect_risks], lines 89-108: [risks] grows by [append] under eight
    independent tests. *)
Definition append_if (b : bool) (x : string) (risks : list string)
  : list string :=
  if b then risks ++ [x] else risks.

Definition detect_risks (clause : string) : list string :=
  let c := lower clause in
  let risks := [] in
  let risks := append_if (contains "indemn" c) "Indemnity" risks in
  let risks :=
    append_if (contains "penalty" c || contains "fine" c) "Penalty" risks in
  let risks :=
    append_if (contains "terminate at any time" c
               || contains "without cause" c)
      "Unilateral Termination" risks in
  let risks :=
    append_if (contains "arbitration" c || contains "jurisdiction" c)
      "Arbitration/Jurisdiction" risks in
  let risks :=
    append_if (contains "automatically renew" c) "Auto Renewal" risks in
  let risks := append_if (contains "non-compete" c) "Non Compete" risks in
  let risks :=
    append_if (contains "intellectual property" c && contains "assign" c)
      "IP Transfer" risks in
  let risks :=
    append_if (contains "lock-in" c || contains "cannot terminate before" c)
      "Lock-in Period" risks in
  risks.

(** [risk_level], lines 110-115. *)
Definition risk_level (risks : list string) : string :=
  if (List.length risks =? 0)%nat then "Low"
  else if (List.length risks =? 1)%nat then "Medium"
  else "High".

(** ** The analysis loop at module level, lines 198-233

    The loop threads [report] and [high_count]; what it shows for a clause is
    kept as one record per clause.  The similarity score it also shows comes
    from scikit-learn in floating point and is left out of the record. *)

Record clause_view : Type := mk_view {
  cv_number : nat;
  cv_intent : string;
  cv_level : string;
  cv_risks : list string;
  cv_vague : list string
}.

Record loop_state : Type := mk_state {
  report : string;
  high_count : nat;
  shown : list clause_view
}.

Definition nl : string := String newline EmptyString.

(** [enumerate(clauses)] *)
Fixpoint enumerate_from (i : nat) (l : list string) : list (nat * string) :=
  match l with
  | [] => []
  | x :: l' => (i, x) :: enumerate_from (S i) l'
  end.

Definition enumerate (l : list string) : list (nat * string) :=
  enumerate_from 0 l.

Definition loop_body (st : loop_state) (ic : nat * string) : loop_state :=
  let (i, clause) := ic in
  let intent := classify_intent clause in
  let risks := detect_risks clause in
  let level := risk_level risks in
  let vague := detect_ambiguity clause in
  {| report :=
       report st ++ "Clause " ++ str (i + 1) ++ " | " ++ level ++ " | "
       ++ join "," risks ++ nl;
     high_count :=
       if String.eqb level "High" then high_count st + 1 else high_count st;
     shown := shown st ++ [mk_view (i + 1) intent level risks vague] |}.

Definition initial_state : loop_state :=
  {| report := "CONTRACT SUMMARY" ++ nl; high_count := 0; shown := [] |}.

Definition run_loop (clauses : list string) : loop_state :=
  fold_left loop_body (enumerate clauses) initial_state.

(** Lines 229-233. *)
Definition overall_risk (high_count : nat) : string :=
  if (2 <? high_count)%nat then "High"
  else if (0 <? high_count)%nat then "Medium"
  else "Low".

(** From the normalized text to what the run shows: the per-clause records
    and the overall verdict. *)
Definition analyze (text : string) : list clause_view * string :=
  let clauses := split_clauses text in
  let st := run_loop clauses in
  (shown st, overall_risk (high_count st)).

Definition example_text : string :=
  "Employee shall not disclose confidential information." ++ nl ++ nl
  ++ "Employee shall indemnify Employer for any penalty arising from breach. This clause also includes arbitration for disputes.".

(** ** Notions used to state the properties *)

(** [pat] occurs in [s] as a contiguous substring. *)
Definition occurs_in (pat s : string) : Prop :=
  exists a b : string, s = a ++ pat ++ b.

(** The closed taxonomy, in the order of the rule table. *)
Definition taxonomy : list string :=
  ["Indemnity"; "Penalty"; "Unilateral Termination";
   "Arbitration/Jurisdiction"; "Auto Renewal"; "Non Compete"; "IP Transfer";
   "Lock-in Period"].

(** The rule table of the specification (section 4.3), row by row: a row
    fires when one of its patterns occurs, or, for the row marked as a
    conjunction, when all of them do. *)
Inductive rule_pattern : Type :=
| AnyOf (pats : list string)
| AllOf (pats : list string).

Definition spec_risk_table : list (rule_pattern * string) :=
  [ (AnyOf ["indemn"], "Indemnity");
    (AnyOf ["penalty"; "fine"], "Penalty");
    (AnyOf ["terminate at any time"; "without cause"],
     "Unilateral Termination");
    (AnyOf ["arbitration"; "jurisdiction"], "Arbitration/Jurisdiction");
    (AnyOf ["automatically renew"], "Auto Renewal");
    (AnyOf ["non-compete"], "Non Compete");
    (AllOf ["intellectual property"; "assign"], "IP Transfer");
    (AnyOf ["lock-in"; "cannot terminate before"], "Lock-in Period") ].

Definition fires (c : string) (p : rule_pattern) : bool :=
  match p with
  | AnyOf pats => existsb (fun pat => contains pat c) pats
  | AllOf pats => forallb (fun pat => contains pat c) pats
  end.

(** The detector as the table reads: the categories of the rows that fire,
    in table order. *)
Definition spec_detect_risks (clause : string) : list string :=
  map snd (filter (fun row => fires (lower clause) (fst row)) spec_risk_table).

(** What the loop shows for the clause at index [i]. *)
Definition view_of (ic : nat * string) : clause_view :=
  let (i, clause) := ic in
  mk_view (i + 1) (classify_intent clause)
    (risk_level (detect_risks clause)) (detect_risks clause)
    (detect_ambiguity clause).

Definition is_high (clause : string) : bool :=
  String.eqb (risk_level (detect_risks clause)) "High".

(** White space only. *)
Fixpoint all_space (s : string) : bool :=
  match s with
  | EmptyString => true
  | String c s' => isspace c && all_space s'
  end.

(** A blank-line boundary: a line break, then white space only, then a line
    break. *)
Definition blank_line_boundary (sep : string) : Prop :=
  exists w : string, sep = nl ++ w ++ nl /\ all_space w = true.

(** The text made of the pieces with a separator between neighbours. *)
Fixpoint interleave (pieces seps : list string) : string :=
  match pieces, seps with
  | p :: ps, sep :: seps' => p ++ sep ++ interleave ps seps'
  | p :: _, [] => p
  | [], _ => EmptyString
  end.

Definition starts_solid (s : string) : bool :=
  match s with
  | EmptyString => false
  | String c _ => negb (isspace c)
  end.

Fixpoint ends_solid (s : string) : bool :=
  match s with
  | EmptyString => false
  | String c EmptyString => negb (isspace c)
  | String _ s' => ends_solid s'
  end.

(** No white space at either end. *)
Definition trimmed (s : string) : Prop :=
  s = EmptyString \/ (starts_solid s = true /\ ends_solid s = true).

(** The pattern matches somewhere in [s]. *)
Fixpoint has_match (s : string) : bool :=
  match Re.match_at s with
  | Some _ => true
  | None =>
      match s with
      | EmptyString => false
      | String _ s' => has_match s'
      end
  end.

(** A clause as the segmenter returns it: solid at both ends and with no
    match of the pattern inside. *)
Definition clean_clause (c : string) : Prop :=
  starts_solid c = true /\ ends_solid c = true /\ has_match c = false.

(** ** The lookup tables, lines 118-142 *)

(** [m.get(k, default)] on a dict written as its list of items. *)
Fixpoint dict_get (m : list (string * string)) (k default : string)
  : string :=
  match m with
  | [] => default
  | (k', v) :: m' => if String.eqb k' k then v else dict_get m' k default
  end.

(** [explain_risk], lines 118-129. *)
Definition explain_risk (r : string) : string :=
  let m :=
    [ ("Indemnity", "You must cover losses of the other party.");
      ("Penalty", "Financial punishment if terms are broken.");
      ("Unilateral Termination", "Other side can end contract anytime.");
      ("Arbitration/Jurisdiction", "Disputes forced to specific court.");
      ("Auto Renewal", "Renews automatically if not stopped.");
      ("Non Compete", "You cannot work with competitors.");
      ("IP Transfer", "You lose ownership of your work.");
      ("Lock-in Period", "You cannot exit before fixed time.") ] in
  dict_get m r "".

(** [safer_alt], lines 131-142. *)
Definition safer_alt (r : string) : string :=
  let m :=
    [ ("Indemnity", "Limit only to direct proven damages.");
      ("Penalty", "Add reasonable cap on penalties.");
      ("Unilateral Termination", "Require equal notice from both sides.");
      ("Arbitration/Jurisdiction", "Use mutually agreed neutral venue.");
      ("Auto Renewal", "Require written consent before renewal.");
      ("Non Compete", "Limit scope and duration.");
      ("IP Transfer", "Use license instead of ownership transfer.");
      ("Lock-in Period", "Allow early exit with fair notice.") ] in
  dict_get m r "".

(** ** The PDF export, lines 162-171

    The canvas of reportlab is an object that receives calls; the export is
    modelled by the calls it makes, in order.  The path only names the file
    the canvas saves to. *)

(** [s.split("\n")]: a cut at every line break, so at least one line. *)
Fixpoint split_lines (s : string) : list string :=
  match s with
  | EmptyString => [EmptyString]
  | String c s' =>
      if Ascii.eqb c newline then EmptyString :: split_lines s'
      else Re.cons_first c (split_lines s')
  end.

(** [s[:n]] *)
Fixpoint slice_to (n : nat) (s : string) : string :=
  match n, s with
  | S n', String c s' => String c (slice_to n' s')
  | _, _ => EmptyString
  end.

Inductive canvas_call : Type :=
| DrawString (x y : Z) (s : string)
| ShowPage
| Save.

(** One turn of the loop of [create_pdf]: the state is [y] and the calls
    made so far. *)
Definition pdf_step (st : Z * list canvas_call) (line : string)
  : Z * list canvas_call :=
  let (y, calls) := st in
  let calls := (calls ++ [DrawString 40 y (slice_to 95 line)])%list in
  let y := (y - 15)%Z in
  if (y <? 50)%Z then (750%Z, (calls ++ [ShowPage])%list) else (y, calls).

(** [create_pdf(text, path)] *)
Definition create_pdf (text : string) : list canvas_call :=
  let (y, calls) := fold_left pdf_step (split_lines text) (750%Z, []) in
  (calls ++ [Save])%list.

(** Lines 198-237 up to the export: the report of the loop goes to
    [create_pdf]. *)
Definition export_report (text : string) : list canvas_call :=
  create_pdf (report (run_loop (split_clauses text))).

(** ** Notions used to state the properties of the export *)

(** What the calls draw, in order. *)
Fixpoint drawn (calls : list canvas_call) : list string :=
  match calls with
  | [] => []
  | DrawString _ _ s :: calls' => s :: drawn calls'
  | _ :: calls' => drawn calls'
  end.

(** Where the calls draw, in order. *)
Fixpoint positions (calls : list canvas_call) : list (Z * Z) :=
  match calls with
  | [] => []
  | DrawString x y _ :: calls' => (x, y) :: positions calls'
  | _ :: calls' => positions calls'
  end.

Fixpoint page_breaks (calls : list canvas_call) : nat :=
  match calls with
  | [] => 0
  | ShowPage :: calls' => S (page_breaks calls')
  | _ :: calls' => page_breaks calls'
  end.

(** The height of line number [k] (from 0): 47 lines to a page, 15 apart,
    from 750 down. *)
Definition line_height (k : nat) : Z := (750 - 15 * Z.of_nat (k mod 47))%Z.

(** The calls the loop makes for the lines from number [k] on. *)
Fixpoint calls_from (k : nat) (lines : list string) : list canvas_call :=
  match lines with
  | [] => []
  | line :: lines' =>
      DrawString 40 (line_height k) (slice_to 95 line)
      :: (if (S k mod 47 =? 0)%nat then [ShowPage] else [])
         ++ calls_from (S k) lines'
  end.

(** The line of the report for the clause at index [i]. *)
Definition report_line (ic : nat * string) : string :=
  let (i, clause) := ic in
  "Clause " ++ str (i + 1) ++ " | " ++ risk_level (detect_risks clause)
  ++ " | " ++ join "," (detect_risks clause).

(** No line break in [s]. *)
Fixpoint one_line (s : string) : bool :=
  match s with
  | EmptyString => true
  | String c s' => negb (Ascii.eqb c newline) && one_line s'
  end.

(** The lines, each closed by a line break. *)
Fixpoint unlines (lines : list string) : string :=
  match lines with
  | [] => EmptyString
  | line :: lines' => line ++ nl ++ unlines lines'
  end.

(** ** Substring containment *)

Section Containment.

Lemma prefix_app (p b : string) : String.prefix p (p ++ b) = true.
Proof.
  induction p as [|c p IH]; simpl.
  - now destruct b.
  - destruct (ascii_dec c c) as [_|ne]; [exact IH | now elim ne].
Qed.

Lemma prefix_inv (p s : string) :
  String.prefix p s = true -> exists b, s = p ++ b.
Proof.
  revert s; induction p as [|c p IH]; intros s H.
  - now exists s.
  - destruct s as [|d s]; simpl in H; [discriminate|].
    destruct (ascii_dec c d) as [->|]; [|discriminate].
    destruct (IH _ H) as [b ->]. now exists b.
Qed.

Lemma contains_unfold (pat s : string) :
  contains pat s
  = String.prefix pat s
    || match s with
       | EmptyString => false
       | String _ s' => contains pat s'
       end.
Proof. now destruct s. Qed.

Lemma contains_occurs (pat s : string) :
  contains pat s = true <-> occurs_in pat s.
Proof.
  split.
  - induction s as [|c s IH]; rewrite contains_unfold; intros H;
      apply orb_true_iff in H as [H|H]; try discriminate.
    + destruct (prefix_inv _ _ H) as [b ->]. now exists EmptyString, b.
    + destruct (prefix_inv _ _ H) as [b E]. now exists EmptyString, b.
    + destruct (IH H) as (a & b & ->). now exists (String c a), b.
  - intros (a & b & ->). induction a as [|c a IH].
    + rewrite contains_unfold. change ("" ++ pat ++ b) with (pat ++ b).
      now rewrite prefix_app.
    + change (String c a ++ pat ++ b) with (String c (a ++ pat ++ b)).
      rewrite contains_unfold, IH. apply orb_true_r.
Qed.

Lemma contains_reflect (pat s : string) :
  reflect (occurs_in pat s) (contains pat s).
Proof.
  apply iff_reflect. symmetry. apply contains_occurs.
Qed.

Lemma reflect_or (P Q : Prop) (a b : bool) :
  reflect P a -> reflect Q b -> reflect (P \/ Q) (a || b).
Proof. intros [p|np] [q|nq]; constructor; tauto. Qed.

Lemma contains_either (p q s : string) :
  reflect (occurs_in p s \/ occurs_in q s) (contains p s || contains q s).
Proof. apply reflect_or; apply contains_reflect. Qed.

Lemma contains_any3 (p q r s : string) :
  reflect (occurs_in p s \/ occurs_in q s \/ occurs_in r s)
    (contains p s || contains q s || contains r s).
Proof.
  destruct (contains_either p q s), (contains_reflect r s);
    constructor; tauto.
Qed.

End Containment.

(** One case split per test of a decision list. *)
Ltac case_tests :=
  repeat match goal with
         | |- context [contains ?p ?s || contains ?q ?s || contains ?r ?s] =>
             destruct (contains_any3 p q r s)
         | |- context [contains ?p ?s || contains ?q ?s] =>
             destruct (contains_either p q s)
         | |- context [contains ?p ?s] =>
             destruct (contains_reflect p s)
         end.

(** ** The analysis loop as a whole *)

Section Loop.

Lemma loop_shown (l : list (nat * string)) (st : loop_state) :
  shown (fold_left loop_body l st) = (shown st ++ map view_of l)%list.
Proof.
  revert st; induction l as [|[i c] l IH]; intros st; simpl.
  - now rewrite app_nil_r.
  - rewrite IH. simpl. now rewrite <- app_assoc.
Qed.

Lemma loop_high_count (l : list (nat * string)) (st : loop_state) :
  high_count (fold_left loop_body l st)
  = high_count st + List.length (filter (fun ic => is_high (snd ic)) l).
Proof.
  revert st; induction l as [|[i c] l IH]; intros st; simpl.
  - lia.
  - rewrite IH. unfold is_high. simpl.
    destruct (String.eqb (risk_level (detect_risks c)) "High"); simpl; lia.
Qed.

Lemma enumerate_from_numbers (l : list string) (i : nat) :
  map (fun ic => fst ic + 1) (enumerate_from i l)
  = seq (i + 1) (List.length l).
Proof.
  revert i; induction l as [|c l IH]; intros i; simpl; [reflexivity|].
  f_equal. now rewrite IH.
Qed.

Lemma enumerate_from_snd (l : list string) (i : nat) :
  map snd (enumerate_from i l) = l.
Proof.
  revert i; induction l as [|c l IH]; intros i; simpl; [reflexivity|].
  now rewrite IH.
Qed.

Lemma count_high_views (l : list (nat * string)) :
  count_occ string_dec (map cv_level (map view_of l)) "High"
  = List.length (filter (fun ic => is_high (snd ic)) l).
Proof.
  induction l as [|[i c] l IH]; simpl; [reflexivity|].
  unfold is_high at 1. simpl.
  destruct (string_dec (risk_level (detect_risks c)) "High") as [e|ne].
  - rewrite e. simpl. now rewrite IH.
  - apply String.eqb_neq in ne. now rewrite ne.
Qed.

End Loop.

(** ** Strings *)

Section Strings.

Lemma append_assoc (a b c : string) : (a ++ b) ++ c = a ++ b ++ c.
Proof. induction a as [|x a IH]; simpl; [reflexivity | now rewrite IH]. Qed.

Lemma append_nil_r (a : string) : a ++ "" = a.
Proof. induction a as [|x a IH]; simpl; [reflexivity | now rewrite IH]. Qed.

Lemma append_length (a b : string) :
  String.length (a ++ b) = String.length a + String.length b.
Proof. induction a as [|x a IH]; simpl; [reflexivity | now rewrite IH]. Qed.

End Strings.

(** ** The pattern [\n\s*\n] *)

Section Pattern.

Import Re.

Lemma newline_space : isspace newline = true.
Proof. reflexivity. Qed.

Lemma eqb_newline (c : ascii) : Ascii.eqb c newline = true -> c = newline.
Proof. apply Ascii.eqb_eq. Qed.

Lemma match_tail_length (s r : string) :
  match_tail s = Some r -> String.length r < String.length s.
Proof.
  revert r; induction s as [|c s IH]; simpl; intros r H; [discriminate|].
  destruct (isspace c); [|discriminate].
  destruct (match_tail s) as [r'|].
  - injection H as <-. specialize (IH _ eq_refl). lia.
  - destruct (Ascii.eqb c newline); [|discriminate]. injection H as <-. lia.
Qed.

Lemma match_at_length (s r : string) :
  match_at s = Some r -> String.length r < String.length s.
Proof.
  destruct s as [|c s]; simpl; [discriminate|].
  destruct (Ascii.eqb c newline); [|discriminate].
  intros H. apply match_tail_length in H. lia.
Qed.

(** What a match consumes is a blank-line boundary. *)
Lemma match_tail_shape (s r : string) :
  match_tail s = Some r ->
  exists w, s = w ++ nl ++ r /\ all_space w = true.
Proof.
  revert r; induction s as [|c s IH]; simpl; intros r H; [discriminate|].
  destruct (isspace c) eqn:Hc; [|discriminate].
  destruct (match_tail s) as [r'|].
  - injection H as <-. destruct (IH _ eq_refl) as (w & -> & Hw).
    exists (String c w). simpl. now rewrite Hc, Hw.
  - destruct (Ascii.eqb c newline) eqn:E; [|discriminate]. injection H as <-.
    apply eqb_newline in E as ->. now exists EmptyString.
Qed.

Lemma match_at_shape (s r : string) :
  match_at s = Some r ->
  exists sep, s = sep ++ r /\ blank_line_boundary sep.
Proof.
  destruct s as [|c s]; simpl; [discriminate|].
  destruct (Ascii.eqb c newline) eqn:E; [|discriminate].
  apply eqb_newline in E as ->. intros H.
  destruct (match_tail_shape _ _ H) as (w & -> & Hw).
  exists (nl ++ w ++ nl). split.
  - simpl. f_equal. now rewrite append_assoc.
  - now exists w.
Qed.

Lemma match_tail_nl (r : string) :
  match_tail (nl ++ r)
  = match match_tail r with Some r' => Some r' | None => Some r end.
Proof. reflexivity. Qed.

(** White space closed by a line break always matches [\s*\n]. *)
Lemma match_tail_blank (w r : string) :
  all_space w = true -> match_tail (w ++ nl ++ r) <> None.
Proof.
  induction w as [|c w IH].
  - intros _. change ("" ++ nl ++ r) with (nl ++ r). rewrite match_tail_nl.
    destruct (match_tail r); discriminate.
  - cbn [append match_tail all_space]. intros H.
    apply andb_true_iff in H as [Hc Hw]. rewrite Hc.
    specialize (IH Hw). destruct (match_tail (w ++ nl ++ r)); [discriminate|].
    now elim IH.
Qed.

(** The greedy star stops at the last line break before solid text. *)
Lemma match_tail_solid (r : string) :
  starts_solid r = true -> match_tail r = None.
Proof.
  destruct r as [|c r]; simpl; [discriminate|].
  now destruct (isspace c).
Qed.

Lemma match_tail_greedy (w r : string) :
  all_space w = true -> starts_solid r = true ->
  match_tail (w ++ nl ++ r) = Some r.
Proof.
  intros Hw Hr. induction w as [|c w IH].
  - change ("" ++ nl ++ r) with (nl ++ r).
    now rewrite match_tail_nl, (match_tail_solid _ Hr).
  - cbn [all_space] in Hw. cbn [append match_tail]. apply andb_true_iff in Hw as [Hc Hw]. rewrite Hc.
    now rewrite (IH Hw).
Qed.

(** A match on a text is still a match when the text goes on. *)
Lemma match_tail_app (x y r : string) :
  match_tail x = Some r -> match_tail (x ++ y) <> None.
Proof.
  revert r; induction x as [|c x IH]; simpl; intros r H; [discriminate|].
  destruct (isspace c); [|discriminate].
  destruct (match_tail x) as [r'|].
  - specialize (IH _ eq_refl). destruct (match_tail (x ++ y)); [discriminate|].
    now elim IH.
  - destruct (Ascii.eqb c newline); [|discriminate].
    destruct (match_tail (x ++ y)); discriminate.
Qed.

Lemma match_at_app (x y : string) :
  match_at (x ++ y) = None -> match_at x = None.
Proof.
  destruct x as [|c x]; simpl; [reflexivity|].
  destruct (Ascii.eqb c newline); [|reflexivity].
  intros H. destruct (match_tail x) as [r|] eqn:E; [|reflexivity].
  now elim (match_tail_app x y r E).
Qed.

(** A match that starts in a text ending on a solid character lies inside
    that text. *)
Lemma match_tail_inside (x y : string) :
  ends_solid x = true -> match_tail x = None -> match_tail (x ++ y) = None.
Proof.
  induction x as [|c x IH]; [discriminate|].
  destruct x as [|d x].
  - simpl. intros H _. apply negb_true_iff in H. now rewrite H.
  - intros He. change (ends_solid (String c (String d x)))
      with (ends_solid (String d x)) in He.
    change (String c (String d x) ++ y) with (String c (String d x ++ y)).
    remember (String d x) as x' eqn:Ex. simpl.
    destruct (isspace c); [|reflexivity].
    destruct (match_tail x') as [r|]; [discriminate|].
    intros H. rewrite (IH He eq_refl).
    destruct (Ascii.eqb c newline); [discriminate | reflexivity].
Qed.

Lemma match_at_inside (x y : string) :
  ends_solid x = true -> match_at x = None -> match_at (x ++ y) = None.
Proof.
  destruct x as [|c x]; [discriminate|].
  destruct x as [|d x].
  - simpl. intros H _. apply negb_true_iff in H.
    destruct (Ascii.eqb c newline) eqn:E; [|reflexivity].
    apply eqb_newline in E as ->. discriminate.
  - intros He. change (ends_solid (String c (String d x)))
      with (ends_solid (String d x)) in He.
    change (String c (String d x) ++ y) with (String c (String d x ++ y)).
    remember (String d x) as x' eqn:Ex. simpl.
    destruct (Ascii.eqb c newline); [|reflexivity].
    now apply match_tail_inside.
Qed.

End Pattern.

(** ** [re.split] *)

Section Split.

Import Re.

Lemma split_from_fuel (n m : nat) (s : string) :
  String.length s <= n -> String.length s <= m ->
  split_from n s = split_from m s.
Proof.
  revert m s; induction n as [|n IH]; intros m s Hn Hm.
  - destruct s; [now destruct m | simpl in Hn; lia].
  - destruct s as [|c s]; [now destruct m|].
    destruct m as [|m]; [simpl in Hm; lia|].
    cbn [split_from]. simpl in Hn, Hm.
    destruct (match_at (String c s)) as [r|] eqn:E.
    + apply match_at_length in E. simpl in E.
      f_equal. apply IH; lia.
    + f_equal. apply IH; lia.
Qed.

Lemma split_nil : split "" = [""].
Proof. reflexivity. Qed.

Lemma split_cons (c : ascii) (s : string) :
  split (String c s)
  = match match_at (String c s) with
    | Some r => "" :: split r
    | None => cons_first c (split s)
    end.
Proof.
  unfold split. cbn [String.length split_from].
  destruct (match_at (String c s)) as [r|] eqn:E.
  - apply match_at_length in E. simpl in E.
    f_equal. apply split_from_fuel; lia.
  - reflexivity.
Qed.

(** Induction along the scan. *)
Lemma split_ind (P : string -> list string -> Prop) :
  P "" [""] ->
  (forall c s r, match_at (String c s) = Some r ->
                 P r (split r) -> P (String c s) ("" :: split r)) ->
  (forall c s, match_at (String c s) = None ->
               P s (split s) -> P (String c s) (cons_first c (split s))) ->
  forall s, P s (split s).
Proof.
  intros Hnil Hmatch Hstep s.
  remember (String.length s) as n eqn:En.
  assert (Hle : String.length s <= n) by lia. clear En.
  revert s Hle; induction n as [|n IH]; intros s Hle.
  - destruct s; [exact Hnil | simpl in Hle; lia].
  - destruct s as [|c s]; [exact Hnil|]. rewrite split_cons.
    destruct (match_at (String c s)) as [r|] eqn:E.
    + apply Hmatch; [exact E|]. apply IH.
      apply match_at_length in E. simpl in E, Hle. lia.
    + apply Hstep; [exact E|]. apply IH. simpl in Hle. lia.
Qed.

(** The pieces and the matched separators make up the text. *)
Lemma split_decompose (s : string) :
  exists seps,
    s = interleave (split s) seps
    /\ List.length (split s) = S (List.length seps)
    /\ Forall blank_line_boundary seps.
Proof.
  apply split_ind with (P := fun s pieces =>
    exists seps, s = interleave pieces seps
                 /\ List.length pieces = S (List.length seps)
                 /\ Forall blank_line_boundary seps); clear s.
  - exists []. now repeat split.
  - intros c s r E (seps & Hr & Hlen & Hseps).
    destruct (match_at_shape _ _ E) as (sep & Hs & Hsep).
    exists (sep :: seps). repeat split.
    + rewrite Hs. cbn [interleave append]. now rewrite <- Hr.
    + simpl. now rewrite Hlen.
    + now constructor.
  - intros c s E (seps & Hs & Hlen & Hseps).
    exists seps. destruct (split s) as [|p ps]; [discriminate|].
    repeat split; [|exact Hlen|exact Hseps].
    rewrite Hs at 1. now destruct seps.
Qed.

Lemma split_head (s : string) :
  exists p ps rest, split s = p :: ps /\ s = p ++ rest.
Proof.
  destruct (split_decompose s) as (seps & Hs & Hlen & _).
  destruct (split s) as [|p ps]; [discriminate|].
  destruct seps as [|sep seps]; simpl in Hs.
  - exists p, ps, "". split; [reflexivity|]. now rewrite append_nil_r.
  - now exists p, ps, (sep ++ interleave ps seps).
Qed.

Lemma has_match_unfold (s : string) :
  has_match s
  = match match_at s with
    | Some _ => true
    | None => match s with
              | EmptyString => false
              | String _ s' => has_match s'
              end
    end.
Proof. now destruct s. Qed.

(** No piece holds a match of the pattern. *)
Lemma split_pieces_clean (s : string) :
  Forall (fun p => has_match p = false) (split s).
Proof.
  apply split_ind with (P := fun s pieces =>
    Forall (fun p => has_match p = false) pieces); clear s.
  - now repeat constructor.
  - intros c s r _ IH. now constructor.
  - intros c s E IH. destruct (split_head s) as (p & ps & rest & Hp & Hs).
    rewrite Hp in *. inversion IH as [|? ? Hclean Hps]; subst.
    constructor; [|exact Hps]. rewrite has_match_unfold.
    rewrite (match_at_app (String c p) rest); [exact Hclean | exact E].
Qed.

(** [has_match] says that a blank-line boundary occurs. *)
Lemma has_match_occurs (s : string) :
  has_match s = true
  <-> exists sep, blank_line_boundary sep /\ occurs_in sep s.
Proof.
  split.
  - induction s as [|c s IH]; rewrite has_match_unfold.
    + discriminate.
    + destruct (match_at (String c s)) as [r|] eqn:E.
      * intros _. destruct (match_at_shape _ _ E) as (sep & Hs & Hsep).
        exists sep. split; [exact Hsep|]. now exists "", r.
      * intros H. destruct (IH H) as (sep & Hsep & a & b & ->).
        exists sep. split; [exact Hsep|]. now exists (String c a), b.
  - intros (sep & (w & -> & Hw) & a & b & ->).
    induction a as [|c a IH].
    + rewrite has_match_unfold.
      change ("" ++ (nl ++ w ++ nl) ++ b)
        with (String newline ((w ++ nl) ++ b)).
      cbn [match_at]. rewrite Ascii.eqb_refl, append_assoc.
      pose proof (match_tail_blank w b Hw) as Hm.
      now destruct (match_tail (w ++ nl ++ b)).
    + rewrite has_match_unfold.
      change (String c a ++ (nl ++ w ++ nl) ++ b)
        with (String c (a ++ (nl ++ w ++ nl) ++ b)).
      destruct (match_at _); [reflexivity | exact IH].
Qed.

End Split.

(** ** [str.strip] *)

Section Strip.

Lemma lstrip_spec (s : string) :
  exists a, s = a ++ lstrip s /\ all_space a = true
            /\ (lstrip s = "" \/ starts_solid (lstrip s) = true).
Proof.
  induction s as [|c s (a & Hs & Ha & Hl)].
  - exists "". auto.
  - simpl. destruct (isspace c) eqn:Hc.
    + exists (String c a). simpl. rewrite Hc, Ha, <- Hs. auto.
    + exists "". simpl. rewrite Hc. auto.
Qed.

Lemma rstrip_spec (s : string) :
  exists b, s = rstrip s ++ b /\ all_space b = true
            /\ (rstrip s = "" \/ ends_solid (rstrip s) = true).
Proof.
  induction s as [|c s (b & Hs & Hb & Hr)].
  - exists "". auto.
  - simpl. destruct (rstrip s) as [|d r].
    + destruct (isspace c) eqn:Hc.
      * exists (String c s). simpl. rewrite Hc. simpl in Hs. subst b. auto.
      * exists b. simpl. rewrite Hc. simpl in Hs. subst b. auto.
    + exists b. destruct Hr as [Hr|Hr]; [discriminate|].
      rewrite Hs at 1. auto.
Qed.

Lemma rstrip_starts (s : string) :
  starts_solid s = true -> starts_solid (rstrip s) = true.
Proof.
  destruct s as [|c s]; simpl; [discriminate|]. intros Hc.
  destruct (rstrip s); [|exact Hc].
  apply negb_true_iff in Hc. rewrite Hc. simpl. now rewrite Hc.
Qed.

Lemma strip_spec (s : string) :
  exists a b, s = a ++ strip s ++ b /\ all_space a = true
              /\ all_space b = true /\ trimmed (strip s).
Proof.
  unfold strip. destruct (lstrip_spec s) as (a & Hs & Ha & Hl).
  destruct (rstrip_spec (lstrip s)) as (b & Hls & Hb & Hr).
  exists a, b. repeat split; [now rewrite <- Hls| exact Ha | exact Hb |].
  destruct Hr as [Hr|Hr]; [now left|].
  destruct Hl as [Hl|Hl]; [rewrite Hl; now left|].
  right. split; [now apply rstrip_starts | exact Hr].
Qed.

Lemma lstrip_solid (s : string) : starts_solid s = true -> lstrip s = s.
Proof.
  destruct s as [|c s]; simpl; [discriminate|].
  intros H. apply negb_true_iff in H. now rewrite H.
Qed.

Lemma rstrip_solid (s : string) : ends_solid s = true -> rstrip s = s.
Proof.
  induction s as [|c s IH]; [discriminate|].
  destruct s as [|d s].
  - simpl. intros H. apply negb_true_iff in H. now rewrite H.
  - intros H. change (ends_solid (String d s) = true) in H.
    cbn [rstrip]. cbn [rstrip] in IH. now rewrite (IH H).
Qed.

Lemma strip_trimmed (s : string) : trimmed s -> strip s = s.
Proof.
  intros [->|[Hs He]]; [reflexivity|].
  unfold strip. rewrite (lstrip_solid _ Hs). now apply rstrip_solid.
Qed.

End Strip.

(** ** Clauses joined again *)

Section Rejoin.

Import Re.

Lemma occurs_in_inside (sep a x b : string) :
  occurs_in sep x -> occurs_in sep (a ++ x ++ b).
Proof.
  intros (a' & b' & ->). exists (a ++ a'), (b' ++ b).
  now rewrite !append_assoc.
Qed.

Lemma has_match_inside (a x b : string) :
  has_match (a ++ x ++ b) = false -> has_match x = false.
Proof.
  intros H. destruct (has_match x) eqn:Hx; [|reflexivity].
  apply has_match_occurs in Hx as (sep & Hsep & Hocc).
  rewrite <- H. symmetry. apply has_match_occurs.
  exists sep. split; [exact Hsep | now apply occurs_in_inside].
Qed.

(** A clean text that ends on a solid character stays in one piece with
    what the scan reads next. *)
Lemma split_solid_prefix (x y p : string) (ps : list string) :
  ends_solid x = true -> has_match x = false -> split y = p :: ps ->
  split (x ++ y) = (x ++ p) :: ps.
Proof.
  intros He Hx Hy. induction x as [|c x IH]; [discriminate|].
  rewrite has_match_unfold in Hx.
  destruct (match_at (String c x)) eqn:E; [discriminate|].
  change (String c x ++ y) with (String c (x ++ y)). rewrite split_cons.
  change (String c (x ++ y)) with (String c x ++ y).
  rewrite (match_at_inside _ y He E).
  destruct x as [|d x].
  - simpl. now rewrite Hy.
  - rewrite (IH He Hx). reflexivity.
Qed.

Lemma split_clean (x : string) :
  ends_solid x = true -> has_match x = false -> split x = [x].
Proof.
  intros He Hx. rewrite <- (append_nil_r x) at 1.
  rewrite (split_solid_prefix x "" "" [] He Hx split_nil).
  now rewrite append_nil_r.
Qed.

Lemma split_boundary (sep r : string) :
  blank_line_boundary sep -> starts_solid r = true ->
  split (sep ++ r) = "" :: split r.
Proof.
  intros (w & -> & Hw) Hr.
  change ((nl ++ w ++ nl) ++ r) with (String newline ((w ++ nl) ++ r)).
  rewrite split_cons. cbn [match_at]. rewrite Ascii.eqb_refl, append_assoc.
  now rewrite (match_tail_greedy w r Hw Hr).
Qed.

Lemma starts_solid_app (a b : string) :
  starts_solid a = true -> starts_solid (a ++ b) = true.
Proof. now destruct a. Qed.

Lemma join_starts (sep c : string) (cs : list string) :
  starts_solid c = true -> starts_solid (join sep (c :: cs)) = true.
Proof.
  intros H. destruct cs; [exact H|]. now apply starts_solid_app.
Qed.

Lemma split_join (sep c : string) (cs : list string) :
  blank_line_boundary sep -> Forall clean_clause (c :: cs) ->
  split (join sep (c :: cs)) = c :: cs.
Proof.
  intros Hsep. revert c; induction cs as [|c2 cs IH]; intros c Hall;
    inversion Hall as [|? ? (Hs & He & Hc) Hcs]; subst.
  - now apply split_clean.
  - change (join sep (c :: c2 :: cs)) with (c ++ sep ++ join sep (c2 :: cs)).
    inversion Hcs as [|? ? (Hs2 & _) _]; subst.
    rewrite (split_solid_prefix c _ "" (c2 :: cs) He Hc).
    + now rewrite append_nil_r.
    + rewrite (split_boundary _ _ Hsep (join_starts sep c2 cs Hs2)).
      now rewrite (IH _ Hcs).
Qed.

Lemma keep_long_trimmed (cs : list string) :
  Forall (fun c => strip c = c /\ 40 < String.length c) cs ->
  map strip (filter (fun p => (40 <? String.length (strip p))%nat) cs) = cs.
Proof.
  induction 1 as [|c cs [Hc Hlen] _ IH]; [reflexivity|].
  simpl. rewrite Hc. apply Nat.ltb_lt in Hlen. rewrite Hlen. simpl.
  now rewrite Hc, IH.
Qed.

Lemma split_clauses_clean (text : string) :
  Forall (fun c => clean_clause c /\ strip c = c /\ 40 < String.length c)
    (split_clauses text).
Proof.
  unfold split_clauses. apply Forall_forall. intros c Hc.
  apply in_map_iff in Hc as (p & <- & Hp).
  apply filter_In in Hp as [Hp Hlen]. apply Nat.ltb_lt in Hlen.
  pose proof (split_pieces_clean text) as Hclean.
  rewrite Forall_forall in Hclean. specialize (Hclean _ Hp).
  destruct (strip_spec p) as (a & b & Hab & _ & _ & Htrim).
  assert (Hm : has_match (strip p) = false).
  { apply (has_match_inside a _ b). now rewrite <- Hab. }
  split; [|split; [now apply strip_trimmed | exact Hlen]].
  destruct Htrim as [E|[Hs He]]; [rewrite E in Hlen; simpl in Hlen; lia|].
  now repeat split.
Qed.

End Rejoin.

(** ** Properties of the classifiers *)

(** C1. On the two-paragraph example text the run shows exactly two clauses:
    clause 1 is a Prohibition with no risk and level Low, clause 2 is an
    Obligation with risks Indemnity, Penalty, Arbitration/Jurisdiction in that
    order and level High; one clause is High, so the overall risk is
    Medium. *)
Theorem example_end_to_end :
  analyze example_text
  = ([ mk_view 1 "Prohibition" "Low" [] [];
       mk_view 2 "Obligation" "High"
         ["Indemnity"; "Penalty"; "Arbitration/Jurisdiction"] [] ],
     "Medium")
  /\ high_count (run_loop (split_clauses example_text)) = 1.
Proof. split; vm_compute; reflexivity. Qed.

(** C2. The intent classifier is a first-match-wins decision list on the
    lowered clause: Prohibition exactly when "shall not", "must not" or
    "prohibited" occurs (whatever else occurs), otherwise Obligation exactly
    when "shall" or "must" occurs, otherwise Right exactly when "may" or
    "entitled to" occurs, otherwise Neutral; the four cases exclude each
    other, so a clause gets exactly one label. *)
Theorem classify_intent_decision_list (clause : string) :
  let c := lower clause in
  let prohibition :=
    occurs_in "shall not" c \/ occurs_in "must not" c
    \/ occurs_in "prohibited" c in
  let obligation := occurs_in "shall" c \/ occurs_in "must" c in
  let right := occurs_in "may" c \/ occurs_in "entitled to" c in
  (classify_intent clause = "Prohibition" <-> prohibition)
  /\ (classify_intent clause = "Obligation" <-> ~ prohibition /\ obligation)
  /\ (classify_intent clause = "Right"
      <-> ~ prohibition /\ ~ obligation /\ right)
  /\ (classify_intent clause = "Neutral"
      <-> ~ prohibition /\ ~ obligation /\ ~ right).
Proof.
  unfold classify_intent; cbv zeta; case_tests;
    repeat split; intros; try discriminate; tauto.
Qed.

(** C3. The clause risk level is Low exactly for the empty list, Medium
    exactly for a list of one element and High exactly for two or more; two
    lists of the same size get the same level; and the level the loop shows
    for a clause is that of its risk list, whatever the ambiguity detector
    found. *)
Theorem risk_level_by_size (risks risks' : list string)
  (clauses : list string) :
  (risk_level risks = "Low" <-> risks = [])
  /\ (risk_level risks = "Medium" <-> List.length risks = 1)
  /\ (risk_level risks = "High" <-> 2 <= List.length risks)
  /\ (List.length risks = List.length risks'
      -> risk_level risks = risk_level risks')
  /\ Forall (fun v => cv_level v = risk_level (cv_risks v))
       (shown (run_loop clauses)).
Proof.
  repeat split; unfold risk_level.
  - destruct risks as [|a [|b l]]; simpl; intros; try discriminate; auto.
  - now intros ->.
  - destruct risks as [|a [|b l]]; simpl; intros; try discriminate; auto.
  - destruct risks as [|a [|b l]]; simpl; intros; try discriminate; auto.
  - destruct risks as [|a [|b l]]; simpl; intros; try discriminate; lia.
  - destruct risks as [|a [|b l]]; simpl; intros; try reflexivity; lia.
  - now intros ->.
  - unfold run_loop. rewrite loop_shown. simpl.
    apply Forall_forall. intros v Hv. apply in_map_iff in Hv as ([i c] & <- & _).
    reflexivity.
Qed.

(** C4. The loop counts the clauses whose level is High, and the overall
    risk is Low when that count is zero, Medium when it is 1 or 2 and High
    when it exceeds 2. *)
Theorem overall_risk_by_high_count (clauses : list string) :
  let st := run_loop clauses in
  let n := count_occ string_dec (map cv_level (shown st)) "High" in
  high_count st = n
  /\ (overall_risk n = "Low" <-> n = 0)
  /\ (overall_risk n = "Medium" <-> 1 <= n <= 2)
  /\ (overall_risk n = "High" <-> 2 < n).
Proof.
  cbv zeta. split.
  - unfold run_loop. rewrite loop_shown, loop_high_count. simpl.
    now rewrite count_high_views.
  - generalize (count_occ string_dec (map cv_level (shown (run_loop clauses)))
                  "High") as n.
    intros n. unfold overall_risk.
    destruct n as [|[|[|n]]]; simpl; repeat split; intros;
      try discriminate; try reflexivity; lia.
Qed.

Section Detector.

(** Dropping rows of a table keeps its categories distinct. *)
Lemma kept_rows_distinct (keep : rule_pattern * string -> bool)
  (rows : list (rule_pattern * string)) :
  NoDup (map snd rows) -> NoDup (map snd (filter keep rows)).
Proof.
  intros Hrows. induction rows as [|row rows IH]; [constructor|].
  cbn [map] in Hrows. apply NoDup_cons_iff in Hrows as [Hrow Hrest].
  cbn [filter]. destruct (keep row); [|now apply IH].
  cbn [map]. apply NoDup_cons; [|now apply IH].
  intros Hin. apply Hrow. apply in_map_iff in Hin as (other & <- & Hother).
  apply filter_In in Hother as [Hother _]. now apply in_map.
Qed.

Lemma detect_risks_table (clause : string) :
  detect_risks clause = spec_detect_risks clause.
Proof.
  unfold detect_risks, spec_detect_risks, spec_risk_table, append_if, fires.
  cbn [filter map fst snd existsb forallb].
  rewrite !orb_false_r, !andb_true_r.
  repeat match goal with
         | |- context [if ?b then _ else _] => destruct b
         end; reflexivity.
Qed.

Lemma taxonomy_table : map snd spec_risk_table = taxonomy.
Proof. reflexivity. Qed.

Lemma taxonomy_NoDup : NoDup taxonomy.
Proof.
  unfold taxonomy.
  repeat (constructor; [simpl; intros H;
    repeat (destruct H as [H|H]; [discriminate H|]); exact H|]).
  constructor.
Qed.

End Detector.

(** C5. The risk detector returns the categories of the rows of the rule table
    that fire on the lowered clause, in table order, wherever the patterns
    stand in the clause; so its output has no duplicate and lies within the
    taxonomy of eight categories.  IP Transfer is in the output exactly when
    both "intellectual property" and "assign" occur.  The detector is a
    function of the clause text alone, so equal inputs give equal outputs. *)
Theorem detect_risks_table_order (clause : string) :
  detect_risks clause = spec_detect_risks clause
  /\ NoDup (detect_risks clause)
  /\ incl (detect_risks clause) taxonomy
  /\ List.length taxonomy = 8
  /\ (In "IP Transfer" (detect_risks clause)
      <-> occurs_in "intellectual property" (lower clause)
          /\ occurs_in "assign" (lower clause)).
Proof.
  split; [apply detect_risks_table|].
  rewrite detect_risks_table. unfold spec_detect_risks.
  split; [|split; [|split; [reflexivity|]]].
  - apply kept_rows_distinct. rewrite taxonomy_table. apply taxonomy_NoDup.
  - intros x Hx. apply in_map_iff in Hx as (row & <- & Hrow).
    apply filter_In in Hrow as [Hrow _]. rewrite <- taxonomy_table.
    now apply in_map.
  - rewrite <- !contains_occurs, <- andb_true_iff. split.
    + intros H. apply in_map_iff in H as ([p cat] & E & Hrow).
      apply filter_In in Hrow as [Hin Hf]. simpl in E; subst cat.
      unfold spec_risk_table in Hin. simpl in Hin.
      repeat (destruct Hin as [Hin|Hin]; [inversion Hin; subst; clear Hin|]);
        try discriminate; try contradiction.
      simpl in Hf. now rewrite andb_true_r in Hf.
    + intros H. apply in_map_iff.
      exists (AllOf ["intellectual property"; "assign"], "IP Transfer").
      split; [reflexivity|]. apply filter_In. split.
      * unfold spec_risk_table. simpl. tauto.
      * simpl. now rewrite andb_true_r.
Qed.

(** C6. The segmenter cuts the text at blank-line boundaries: the pieces of
    [re.split], put together again with the separators that were matched,
    give the text back, every separator is a line break, white space only and
    a line break, and no piece holds such a boundary.  Each piece is trimmed
    ([strip] removes white space at both ends and nothing else), the pieces
    whose trimmed length is at most 40 are dropped, and the others are
    returned in the order of the text; so every clause is trimmed and longer
    than 40 characters.  The loop numbers the clauses 1, 2, ... in that
    order.  The empty text gives no clause.  The segmenter is a total
    function: there is no error result. *)
Theorem split_clauses_segments (text : string) :
  let pieces := Re.split text in
  (exists seps,
      text = interleave pieces seps
      /\ List.length pieces = S (List.length seps)
      /\ Forall blank_line_boundary seps)
  /\ Forall (fun p => forall sep,
                 blank_line_boundary sep -> ~ occurs_in sep p) pieces
  /\ Forall (fun p => exists a b,
                 p = a ++ strip p ++ b /\ all_space a = true
                 /\ all_space b = true /\ trimmed (strip p)) pieces
  /\ split_clauses text
     = map strip
         (filter (fun p => negb (String.length (strip p) <=? 40)%nat) pieces)
  /\ Forall (fun c => trimmed c /\ 40 < String.length c) (split_clauses text)
  /\ fst (analyze text) = map view_of (enumerate (split_clauses text))
  /\ map cv_number (fst (analyze text))
     = seq 1 (List.length (split_clauses text))
  /\ split_clauses "" = [].
Proof.
  cbv zeta. split; [apply split_decompose|].
  split; [|split; [|split; [|split; [|split; [|split]]]]].
  - pose proof (split_pieces_clean text) as H.
    apply Forall_forall. intros p Hp sep Hsep Hocc.
    rewrite Forall_forall in H. specialize (H _ Hp).
    assert (Ht : has_match p = true)
      by (apply has_match_occurs; now exists sep).
    congruence.
  - apply Forall_forall. intros p _. apply strip_spec.
  - unfold split_clauses. f_equal. apply filter_ext. intros p.
    now rewrite Nat.ltb_antisym.
  - pose proof (split_clauses_clean text) as H. revert H.
    apply Forall_impl. intros c ((Hs & He & _) & _ & Hlen).
    split; [right; now split | exact Hlen].
  - unfold analyze, run_loop. cbn [fst]. now rewrite loop_shown.
  - unfold analyze, run_loop. cbn [fst]. rewrite loop_shown.
    change (shown initial_state) with (@nil clause_view). cbn [app].
    unfold enumerate. rewrite map_map.
    change 1 with (0 + 1).
    rewrite <- (enumerate_from_numbers (split_clauses text) 0).
    apply map_ext. now intros [i c].
  - reflexivity.
Qed.

(** C7. The segmenter is idempotent under rejoining: the clauses of a text,
    joined with a blank-line separator (two line breaks, or any line break,
    white space, line break), are segmented into the same clauses again. *)
Theorem split_clauses_rejoin (text sep : string) :
  blank_line_boundary sep ->
  split_clauses (join sep (split_clauses text)) = split_clauses text.
Proof.
  intros Hsep. pose proof (split_clauses_clean text) as H.
  destruct (split_clauses text) as [|c cs]; [reflexivity|].
  unfold split_clauses at 1. rewrite (split_join sep c cs Hsep).
  - apply keep_long_trimmed. revert H. apply Forall_impl. tauto.
  - revert H. apply Forall_impl. tauto.
Qed.

Lemma split_clauses_rejoin_witness :
  blank_line_boundary (nl ++ nl)
  /\ split_clauses (join (nl ++ nl) (split_clauses example_text))
     = split_clauses example_text.
Proof.
  assert (H : blank_line_boundary (nl ++ nl)) by (now exists "").
  split; [exact H | exact (split_clauses_rejoin example_text (nl ++ nl) H)].
Defined.

(** C9. The contract type classifier is a first-match-wins decision list on
    the lowered text: Employment Agreement exactly when "employee" or
    "salary" occurs; otherwise Lease Agreement exactly when "lease" or "rent"
    occurs; otherwise Vendor Contract exactly when "vendor" or "supply"
    occurs; otherwise Partnership Agreement exactly when "partner" occurs;
    otherwise Service Agreement.  The empty text is a Service Agreement. *)
Theorem classify_contract_decision_list (text : string) :
  let t := lower text in
  let employment := occurs_in "employee" t \/ occurs_in "salary" t in
  let lease := occurs_in "lease" t \/ occurs_in "rent" t in
  let vendor := occurs_in "vendor" t \/ occurs_in "supply" t in
  let partner := occurs_in "partner" t in
  (classify_contract text = "Employment Agreement" <-> employment)
  /\ (classify_contract text = "Lease Agreement" <-> ~ employment /\ lease)
  /\ (classify_contract text = "Vendor Contract"
      <-> ~ employment /\ ~ lease /\ vendor)
  /\ (classify_contract text = "Partnership Agreement"
      <-> ~ employment /\ ~ lease /\ ~ vendor /\ partner)
  /\ (classify_contract text = "Service Agreement"
      <-> ~ employment /\ ~ lease /\ ~ vendor /\ ~ partner)
  /\ classify_contract "" = "Service Agreement".
Proof.
  unfold classify_contract at 1 2 3 4 5; cbv zeta; case_tests;
    repeat split; intros; try discriminate; try reflexivity; tauto.
Qed.

(** C10. Vague phrases are matched as substrings, with no word boundary:
    whenever "etc" occurs anywhere in the lowered clause, also inside a
    longer word, the ambiguity detector reports "etc". *)
Theorem detect_ambiguity_substring (clause : string) :
  occurs_in "etc" (lower clause) -> In "etc" (detect_ambiguity clause).
Proof.
  intros H. apply contains_occurs in H. unfold detect_ambiguity.
  apply filter_In. split; [|exact H]. unfold vague. simpl. tauto.
Qed.

Lemma detect_ambiguity_substring_witness :
  occurs_in "etc" (lower "The Supplier will stretch the delivery window if the Buyer agrees.")
  /\ detect_ambiguity "The Supplier will stretch the delivery window if the Buyer agrees." = ["etc"]
  /\ In "etc" (detect_ambiguity "The Supplier will stretch the delivery window if the Buyer agrees.").
Proof.
  split; [|split].
  - exists "the supplier will str", "h the delivery window if the buyer agrees.".
    reflexivity.
  - reflexivity.
  - apply (detect_ambiguity_substring
             "The Supplier will stretch the delivery window if the Buyer agrees.").
    exists "the supplier will str", "h the delivery window if the buyer agrees.".
    reflexivity.
Defined.

(** * Further properties of the code *)

(** ** Lowering and longer texts *)

Section Lowering.

Lemma lower_char_twice (c : ascii) : lower_char (lower_char c) = lower_char c.
Proof.
  destruct c as [b0 b1 b2 b3 b4 b5 b6 b7].
  destruct b0, b1, b2, b3, b4, b5, b6, b7; reflexivity.
Qed.

Lemma lower_twice (s : string) : lower (lower s) = lower s.
Proof.
  induction s as [|c s IH]; simpl; [reflexivity|].
  now rewrite lower_char_twice, IH.
Qed.

Lemma lower_append (a b : string) : lower (a ++ b) = lower a ++ lower b.
Proof.
  induction a as [|c a IH]; simpl; [reflexivity | now rewrite IH].
Qed.

Lemma lower_length (s : string) : String.length (lower s) = String.length s.
Proof.
  induction s as [|c s IH]; simpl; [reflexivity | now rewrite IH].
Qed.

(** What occurs in a lowered text occurs in every lowered text around it. *)
Lemma occurs_in_longer (pat a c b : string) :
  occurs_in pat (lower c) -> occurs_in pat (lower (a ++ c ++ b)).
Proof.
  intros H. rewrite !lower_append. now apply occurs_in_inside.
Qed.

Lemma contains_longer (pat a c b : string) :
  contains pat (lower c) = true -> contains pat (lower (a ++ c ++ b)) = true.
Proof.
  rewrite !contains_occurs. apply occurs_in_longer.
Qed.

Lemma fires_longer (p : rule_pattern) (a c b : string) :
  fires (lower c) p = true -> fires (lower (a ++ c ++ b)) p = true.
Proof.
  destruct p as [pats|pats]; simpl.
  - rewrite !existsb_exists. intros (pat & Hin & H).
    exists pat. split; [exact Hin | now apply contains_longer].
  - rewrite !forallb_forall. intros H pat Hin.
    apply contains_longer. now apply H.
Qed.

Lemma risk_level_high (risks : list string) :
  risk_level risks = "High" <-> 2 <= List.length risks.
Proof.
  unfold risk_level. destruct risks as [|x [|y risks]]; simpl.
  - split; [discriminate | lia].
  - split; [discriminate | lia].
  - split; [lia | reflexivity].
Qed.

Lemma detect_risks_distinct (clause : string) : NoDup (detect_risks clause).
Proof.
  rewrite detect_risks_table. unfold spec_detect_risks.
  apply kept_rows_distinct. rewrite taxonomy_table. apply taxonomy_NoDup.
Qed.

Lemma detect_risks_in_taxonomy (clause : string) :
  incl (detect_risks clause) taxonomy.
Proof.
  rewrite detect_risks_table. unfold spec_detect_risks.
  intros r Hr. apply in_map_iff in Hr as (row & <- & Hrow).
  apply filter_In in Hrow as [Hrow _]. rewrite <- taxonomy_table.
  now apply in_map.
Qed.

End Lowering.

(** X1. Letter case plays no part: each classifier gives on the lowered text
    what it gives on the text. *)
Theorem classifiers_ignore_case (text : string) :
  classify_intent (lower text) = classify_intent text
  /\ detect_risks (lower text) = detect_risks text
  /\ detect_ambiguity (lower text) = detect_ambiguity text
  /\ classify_contract (lower text) = classify_contract text.
Proof.
  unfold classify_intent, detect_risks, detect_ambiguity, classify_contract.
  cbv zeta. rewrite lower_twice. now repeat split.
Qed.

(** X2. Text added before or after a clause never removes a risk: the risks
    of the clause are among those of the longer clause, which therefore has
    at least as many, and is High when the clause was. *)
Theorem risks_grow_with_text (a c b : string) :
  incl (detect_risks c) (detect_risks (a ++ c ++ b))
  /\ List.length (detect_risks c) <= List.length (detect_risks (a ++ c ++ b))
  /\ (risk_level (detect_risks c) = "High"
      -> risk_level (detect_risks (a ++ c ++ b)) = "High").
Proof.
  assert (Hincl : incl (detect_risks c) (detect_risks (a ++ c ++ b))).
  { rewrite !detect_risks_table. unfold spec_detect_risks.
    intros r Hr. apply in_map_iff in Hr as (row & <- & Hrow).
    apply filter_In in Hrow as [Hrow Hf]. apply in_map, filter_In.
    split; [exact Hrow | now apply fires_longer]. }
  assert (Hlen : List.length (detect_risks c)
                 <= List.length (detect_risks (a ++ c ++ b))).
  { apply NoDup_incl_length; [apply detect_risks_distinct | exact Hincl]. }
  split; [exact Hincl | split; [exact Hlen|]].
  rewrite !risk_level_high. lia.
Qed.

(** X3. A clause once read as a Prohibition stays one under any text added
    before or after it. *)
Theorem prohibition_persists (a c b : string) :
  classify_intent c = "Prohibition" ->
  classify_intent (a ++ c ++ b) = "Prohibition".
Proof.
  unfold classify_intent. cbv zeta.
  destruct (contains_any3 "shall not" "must not" "prohibited" (lower c))
    as [H|H].
  - intros _.
    destruct (contains_any3 "shall not" "must not" "prohibited"
                (lower (a ++ c ++ b))) as [_|H']; [reflexivity|].
    elim H'. destruct H as [H|[H|H]]; eauto using occurs_in_longer.
  - case_tests; discriminate.
Qed.

Lemma prohibition_persists_witness :
  classify_intent "shall not assign" = "Prohibition"
  /\ classify_intent ("The Employee may, but " ++ "shall not assign"
                      ++ " this Agreement.") = "Prohibition".
Proof.
  split; [reflexivity|].
  apply (prohibition_persists "The Employee may, but " "shall not assign"
           " this Agreement.").
  reflexivity.
Defined.

(** X4. A text once classified as an Employment Agreement stays one under any
    text added before or after it. *)
Theorem employment_persists (a t b : string) :
  classify_contract t = "Employment Agreement" ->
  classify_contract (a ++ t ++ b) = "Employment Agreement".
Proof.
  unfold classify_contract. cbv zeta.
  destruct (contains_either "employee" "salary" (lower t)) as [H|H].
  - intros _.
    destruct (contains_either "employee" "salary" (lower (a ++ t ++ b)))
      as [_|H']; [reflexivity|].
    elim H'. destruct H as [H|H]; eauto using occurs_in_longer.
  - case_tests; discriminate.
Qed.

Lemma employment_persists_witness :
  classify_contract "monthly salary" = "Employment Agreement"
  /\ classify_contract ("The vendor pays a " ++ "monthly salary"
                        ++ " and the rent.") = "Employment Agreement".
Proof.
  split; [reflexivity|].
  apply (employment_persists "The vendor pays a " "monthly salary"
           " and the rent.").
  reflexivity.
Defined.

(** ** The lookup tables *)

Section Tables.

Lemma dict_get_found (m : list (string * string)) (k : string) :
  dict_get m k "" <> "" -> In k (map fst m).
Proof.
  induction m as [|[k' v] m IH]; simpl; intros H; [now elim H|].
  destruct (String.eqb k' k) eqn:E.
  - left. now apply String.eqb_eq.
  - right. now apply IH.
Qed.

End Tables.

(** X5. Both lookup tables cover the taxonomy and nothing else: a category of
    the taxonomy has an explanation and a safer alternative, any other key
    gets the empty string; so every risk the detector reports comes with
    both texts. *)
Theorem tables_cover_taxonomy (r clause : string) :
  (explain_risk r <> "" <-> In r taxonomy)
  /\ (safer_alt r <> "" <-> In r taxonomy)
  /\ Forall (fun risk => explain_risk risk <> "" /\ safer_alt risk <> "")
       (detect_risks clause).
Proof.
  assert (Hin : forall k, In k taxonomy ->
                          explain_risk k <> "" /\ safer_alt k <> "").
  { intros k Hk. unfold taxonomy in Hk. simpl in Hk.
    repeat (destruct Hk as [<-|Hk]; [split; discriminate|]).
    contradiction. }
  split; [|split].
  - split; [apply dict_get_found | apply Hin].
  - split; [apply dict_get_found | apply Hin].
  - apply Forall_forall. intros risk Hrisk. apply Hin.
    exact (detect_risks_in_taxonomy clause risk Hrisk).
Qed.

(** X6. The ambiguity detector reports a phrase exactly when it is one of the
    five vague phrases and occurs in the lowered clause; no phrase is
    reported twice; text added around a clause never removes a finding. *)
Theorem detect_ambiguity_findings (w a c b : string) :
  (In w (detect_ambiguity c) <-> In w vague /\ occurs_in w (lower c))
  /\ NoDup (detect_ambiguity c)
  /\ incl (detect_ambiguity c) (detect_ambiguity (a ++ c ++ b)).
Proof.
  unfold detect_ambiguity. split; [|split].
  - now rewrite filter_In, contains_occurs.
  - apply NoDup_filter. unfold vague.
    repeat (constructor; [simpl; intros H;
      repeat (destruct H as [H|H]; [discriminate H|]); exact H|]).
    constructor.
  - intros x Hx. apply filter_In in Hx as [Hx Hc]. apply filter_In.
    split; [exact Hx | now apply contains_longer].
Qed.

(** ** The report *)

Section Report.

Lemma one_line_append (a b : string) :
  one_line (a ++ b) = one_line a && one_line b.
Proof.
  induction a as [|c a IH]; simpl; [reflexivity|].
  now rewrite IH, andb_assoc.
Qed.

Lemma one_line_digits (d : Decimal.uint) :
  one_line (NilEmpty.string_of_uint d) = true.
Proof. induction d; simpl; auto. Qed.

Lemma one_line_str (n : nat) : one_line (str n) = true.
Proof.
  unfold str, NilZero.string_of_uint.
  destruct (Nat.to_uint n) eqn:E; try reflexivity;
    rewrite <- E; apply one_line_digits.
Qed.

Lemma one_line_join (risks : list string) :
  Forall (fun r => one_line r = true) risks ->
  one_line (join "," risks) = true.
Proof.
  induction 1 as [|r risks Hr Hrisks IH]; [reflexivity|].
  destruct risks as [|r' risks]; [exact Hr|].
  change (join "," (r :: r' :: risks))
    with (r ++ "," ++ join "," (r' :: risks)).
  now rewrite !one_line_append, Hr, IH.
Qed.

Lemma one_line_risk_level (risks : list string) :
  one_line (risk_level risks) = true.
Proof. unfold risk_level. now destruct risks as [|x [|y risks]]. Qed.

Lemma one_line_risks (clause : string) :
  Forall (fun r => one_line r = true) (detect_risks clause).
Proof.
  apply Forall_forall. intros r Hr.
  apply detect_risks_in_taxonomy in Hr. unfold taxonomy in Hr. simpl in Hr.
  repeat (destruct Hr as [<-|Hr]; [reflexivity|]). contradiction.
Qed.

Lemma one_line_report_line (ic : nat * string) :
  one_line (report_line ic) = true.
Proof.
  destruct ic as [i clause]. unfold report_line.
  rewrite !one_line_append, one_line_str, one_line_risk_level.
  rewrite (one_line_join _ (one_line_risks clause)). reflexivity.
Qed.

(** The loop writes one closed line per clause after what was there. *)
Lemma loop_report (l : list (nat * string)) (st : loop_state) :
  report (fold_left loop_body l st)
  = report st ++ unlines (map report_line l).
Proof.
  revert st; induction l as [|[i c] l IH]; intros st.
  - cbn [fold_left map unlines]. now rewrite append_nil_r.
  - cbn [fold_left map unlines]. rewrite IH.
    unfold loop_body, report_line. cbn [report].
    now rewrite !append_assoc.
Qed.

Lemma split_lines_one (a rest : string) :
  one_line a = true ->
  split_lines (a ++ nl ++ rest) = a :: split_lines rest.
Proof.
  induction a as [|c a IH]; intros H; [reflexivity|].
  cbn [one_line] in H. apply andb_true_iff in H as [Hc Ha].
  apply negb_true_iff in Hc. cbn [append split_lines].
  now rewrite Hc, (IH Ha).
Qed.

Lemma split_lines_unlines (lines : list string) :
  Forall (fun l => one_line l = true) lines ->
  split_lines (unlines lines) = (lines ++ [""])%list.
Proof.
  induction 1 as [|l lines Hl _ IH]; [reflexivity|].
  cbn [unlines]. now rewrite (split_lines_one _ _ Hl), IH.
Qed.

Lemma report_lines (clauses : list string) :
  split_lines (report (run_loop clauses))
  = ("CONTRACT SUMMARY" :: map report_line (enumerate clauses) ++ [""])%list.
Proof.
  unfold run_loop. rewrite loop_report.
  change (report initial_state ++ unlines (map report_line (enumerate clauses)))
    with (unlines ("CONTRACT SUMMARY" :: map report_line (enumerate clauses))).
  rewrite split_lines_unlines; [reflexivity|].
  constructor; [reflexivity|]. apply Forall_forall. intros l Hl.
  apply in_map_iff in Hl as (ic & <- & _). apply one_line_report_line.
Qed.

End Report.

(** X7. The report is the header line followed by one line per clause, in
    clause order, each "Clause n | level | risks", and it ends with a line
    break: no clause line is ever broken in two, since numbers, levels and
    category names hold no line break. *)
Theorem report_one_line_per_clause (clauses : list string) :
  split_lines (report (run_loop clauses))
  = ("CONTRACT SUMMARY" :: map report_line (enumerate clauses) ++ [""])%list
  /\ List.length (split_lines (report (run_loop clauses)))
     = List.length clauses + 2.
Proof.
  rewrite report_lines. split; [reflexivity|].
  cbn [List.length]. rewrite length_app, length_map. unfold enumerate.
  rewrite <- (length_map snd), enumerate_from_snd. simpl. lia.
Qed.

(** ** The PDF export *)

Section PdfExport.

Lemma succ_mod_page (k : nat) :
  S k mod 47 = if (k mod 47 =? 46)%nat then 0 else S (k mod 47).
Proof.
  pose proof (Nat.div_mod_eq k 47) as Hk.
  pose proof (Nat.mod_upper_bound k 47 ltac:(lia)) as Hm.
  destruct (Nat.eqb_spec (k mod 47) 46) as [E|E]; symmetry.
  - apply (Nat.mod_unique (S k) 47 (S (k / 47))); lia.
  - apply (Nat.mod_unique (S k) 47 (k / 47)); lia.
Qed.

Lemma succ_div_page (k : nat) :
  S k / 47 = if (S k mod 47 =? 0)%nat then S (k / 47) else k / 47.
Proof.
  pose proof (Nat.div_mod_eq k 47) as Hk.
  pose proof (Nat.mod_upper_bound k 47 ltac:(lia)) as Hm.
  rewrite succ_mod_page.
  destruct (Nat.eqb_spec (k mod 47) 46) as [E|E]; simpl; symmetry.
  - apply (Nat.div_unique (S k) 47 (S (k / 47)) 0); lia.
  - apply (Nat.div_unique (S k) 47 (k / 47) (S (k mod 47))); lia.
Qed.

Lemma line_height_bounds (k : nat) : (60 <= line_height k <= 750)%Z.
Proof.
  unfold line_height.
  pose proof (Nat.mod_upper_bound k 47 ltac:(lia)). lia.
Qed.

(** One turn of the loop on line number [k]. *)
Lemma pdf_step_line (k : nat) (calls : list canvas_call) (line : string) :
  pdf_step (line_height k, calls) line
  = (line_height (S k),
     (calls ++ DrawString 40 (line_height k) (slice_to 95 line)
            :: (if (S k mod 47 =? 0)%nat then [ShowPage] else []))%list).
Proof.
  unfold pdf_step, line_height. rewrite succ_mod_page.
  pose proof (Nat.mod_upper_bound k 47 ltac:(lia)) as Hm.
  destruct (Nat.eqb_spec (k mod 47) 46) as [E|E].
  - rewrite E. simpl. now rewrite <- app_assoc.
  - destruct (Z.ltb_spec (750 - 15 * Z.of_nat (k mod 47) - 15) 50) as [L|L];
      [lia|].
    simpl (S (k mod 47) =? 0)%nat. cbv iota.
    f_equal. lia.
Qed.

Lemma pdf_loop (lines : list string) (k : nat) (calls : list canvas_call) :
  fold_left pdf_step lines (line_height k, calls)
  = (line_height (k + List.length lines),
     (calls ++ calls_from k lines)%list).
Proof.
  revert k calls; induction lines as [|line lines IH]; intros k calls.
  - simpl. now rewrite Nat.add_0_r, app_nil_r.
  - cbn [fold_left calls_from List.length]. rewrite pdf_step_line, IH.
    f_equal; [f_equal; lia|]. now rewrite <- app_assoc.
Qed.

Lemma create_pdf_calls (text : string) :
  create_pdf text = (calls_from 0 (split_lines text) ++ [Save])%list.
Proof.
  unfold create_pdf. change 750%Z with (line_height 0).
  now rewrite pdf_loop.
Qed.

Lemma drawn_app (a b : list canvas_call) :
  drawn (a ++ b) = (drawn a ++ drawn b)%list.
Proof.
  induction a as [|[x y s| |] a IH]; simpl; [reflexivity|..]; now rewrite IH.
Qed.

Lemma positions_app (a b : list canvas_call) :
  positions (a ++ b) = (positions a ++ positions b)%list.
Proof.
  induction a as [|[x y s| |] a IH]; simpl; [reflexivity|..]; now rewrite IH.
Qed.

Lemma page_breaks_app (a b : list canvas_call) :
  page_breaks (a ++ b) = page_breaks a + page_breaks b.
Proof.
  induction a as [|[x y s| |] a IH]; simpl; [reflexivity|..]; now rewrite IH.
Qed.

Lemma drawn_calls_from (lines : list string) (k : nat) :
  drawn (calls_from k lines) = map (slice_to 95) lines.
Proof.
  revert k; induction lines as [|line lines IH]; intros k; [reflexivity|].
  cbn [calls_from drawn map]. rewrite drawn_app, IH.
  now destruct (S k mod 47 =? 0)%nat.
Qed.

Lemma positions_calls_from (lines : list string) (k : nat) :
  positions (calls_from k lines)
  = map (fun j => (40%Z, line_height j)) (seq k (List.length lines)).
Proof.
  revert k; induction lines as [|line lines IH]; intros k; [reflexivity|].
  cbn [calls_from positions map seq List.length]. rewrite positions_app, IH.
  now destruct (S k mod 47 =? 0)%nat.
Qed.

Lemma page_breaks_calls_from (lines : list string) (k : nat) :
  page_breaks (calls_from k lines) + k / 47 = (k + List.length lines) / 47.
Proof.
  revert k; induction lines as [|line lines IH]; intros k.
  - simpl. now rewrite Nat.add_0_r.
  - cbn [calls_from page_breaks List.length]. rewrite page_breaks_app.
    specialize (IH (S k)). rewrite (succ_div_page k) in IH.
    replace (k + S (List.length lines)) with (S k + List.length lines) by lia.
    destruct (S k mod 47 =? 0)%nat; simpl in *; lia.
Qed.

Lemma calls_from_no_save (lines : list string) (k : nat) :
  ~ In Save (calls_from k lines).
Proof.
  revert k; induction lines as [|line lines IH]; intros k H.
  - exact H.
  - cbn [calls_from] in H. destruct H as [H|H]; [discriminate|].
    apply in_app_or in H as [H|H]; [|exact (IH (S k) H)].
    destruct (S k mod 47 =? 0)%nat; [|exact H].
    destruct H as [H|H]; [discriminate | exact H].
Qed.

(** Slicing keeps a prefix. *)
Lemma slice_to_prefix (n : nat) (s : string) :
  exists rest, s = slice_to n s ++ rest
               /\ String.length (slice_to n s) = Nat.min n (String.length s).
Proof.
  revert s; induction n as [|n IH]; intros s.
  - exists s. now destruct s.
  - destruct s as [|c s]; [now exists ""|].
    destruct (IH s) as (rest & Hs & Hlen). exists rest. simpl.
    now rewrite <- Hs, Hlen.
Qed.

Lemma slice_to_short (n : nat) (s : string) :
  String.length s <= n -> slice_to n s = s.
Proof.
  revert s; induction n as [|n IH]; intros [|c s]; simpl; intros H;
    try reflexivity; try lia.
  rewrite IH; [reflexivity | lia].
Qed.

Lemma split_lines_head (s : string) :
  exists l ls, split_lines s = l :: ls.
Proof.
  induction s as [|c s (l & ls & E)]; simpl; [now exists "", []|].
  destruct (Ascii.eqb c newline); [now exists "", (split_lines s)|].
  rewrite E. now exists (String c l), ls.
Qed.

(** Joining the lines with line breaks gives the text back. *)
Lemma join_split_lines (s : string) : join nl (split_lines s) = s.
Proof.
  induction s as [|c s IH]; [reflexivity|]. cbn [split_lines].
  destruct (split_lines_head s) as (l & ls & E). rewrite E in *.
  destruct (Ascii.eqb c newline) eqn:Hc.
  - apply eqb_newline in Hc as ->.
    change (join nl ("" :: l :: ls)) with (nl ++ join nl (l :: ls)).
    now rewrite IH.
  - cbn [Re.cons_first]. rewrite <- IH.
    destruct ls; reflexivity.
Qed.

End PdfExport.

(** X8. The export draws every line of the text once, in the order of the
    text, cut after 95 characters: what is drawn for a line is its prefix of
    that length (the whole line when it is not longer).  Even the empty text
    gives one (empty) line to draw. *)
Theorem pdf_draws_every_line (text : string) :
  drawn (create_pdf text) = map (slice_to 95) (split_lines text)
  /\ Forall2 (fun d line =>
                exists rest, line = d ++ rest
                  /\ String.length d = Nat.min 95 (String.length line))
       (drawn (create_pdf text)) (split_lines text)
  /\ 1 <= List.length (drawn (create_pdf text)).
Proof.
  assert (E : drawn (create_pdf text) = map (slice_to 95) (split_lines text)).
  { rewrite create_pdf_calls, drawn_app, drawn_calls_from.
    apply app_nil_r. }
  rewrite E. split; [reflexivity|split].
  - clear E. generalize (split_lines text) as lines.
    induction lines as [|l ls IH]; cbn [map]; constructor;
      [apply slice_to_prefix | exact IH].
  - rewrite length_map. destruct (split_lines_head text) as (l & ls & ->).
    simpl. lia.
Qed.

(** X9. Line number k of the text (from 0) is drawn at x = 40 and at height
    750 - 15 * (k mod 47): every string is drawn at a height from 60 to 750,
    never below the bottom margin. *)
Theorem pdf_line_positions (text : string) :
  positions (create_pdf text)
  = map (fun k => (40%Z, line_height k))
      (seq 0 (List.length (split_lines text)))
  /\ Forall (fun xy => fst xy = 40%Z /\ (60 <= snd xy <= 750)%Z)
       (positions (create_pdf text)).
Proof.
  assert (E : positions (create_pdf text)
              = map (fun k => (40%Z, line_height k))
                  (seq 0 (List.length (split_lines text)))).
  { rewrite create_pdf_calls, positions_app, positions_calls_from.
    apply app_nil_r. }
  rewrite E. split; [reflexivity|].
  apply Forall_forall. intros xy Hxy.
  apply in_map_iff in Hxy as (k & <- & _). simpl.
  split; [reflexivity | apply line_height_bounds].
Qed.

(** X10. A page holds 47 lines: the export starts a new page after every
    47th line, so for n lines it makes n / 47 page breaks; it saves the
    canvas once, as its last call. *)
Theorem pdf_page_breaks (text : string) :
  page_breaks (create_pdf text) = List.length (split_lines text) / 47
  /\ exists calls, create_pdf text = (calls ++ [Save])%list
                   /\ ~ In Save calls.
Proof.
  rewrite create_pdf_calls. split.
  - rewrite page_breaks_app.
    pose proof (page_breaks_calls_from (split_lines text) 0) as H.
    simpl in *. lia.
  - exists (calls_from 0 (split_lines text)).
    split; [reflexivity | apply calls_from_no_save].
Qed.

(** X11. When no line of the text is longer than 95 characters nothing is
    lost: the strings drawn, joined by line breaks, are the text. *)
Theorem pdf_keeps_short_lines (text : string) :
  Forall (fun line => String.length line <= 95) (split_lines text) ->
  join nl (drawn (create_pdf text)) = text.
Proof.
  intros H. rewrite create_pdf_calls, drawn_app, drawn_calls_from.
  cbn [drawn]. rewrite app_nil_r.
  rewrite <- (join_split_lines text) at 2. f_equal.
  induction H as [|l ls Hl _ IH]; [reflexivity|].
  cbn [map]. now rewrite (slice_to_short _ _ Hl), IH.
Qed.

Lemma pdf_keeps_short_lines_witness :
  join nl (drawn (create_pdf ("CONTRACT SUMMARY" ++ nl
                              ++ "Clause 1 | Low | " ++ nl)))
  = "CONTRACT SUMMARY" ++ nl ++ "Clause 1 | Low | " ++ nl.
Proof.
  apply (pdf_keeps_short_lines
           ("CONTRACT SUMMARY" ++ nl ++ "Clause 1 | Low | " ++ nl)).
  repeat constructor; simpl; lia.
Defined.

(** X12. The exported report: the header, one line per clause of the text
    in clause order, and a last empty line, each cut after 95 characters;
    so the export of a text with n clauses draws n + 2 strings. *)
Theorem export_draws_report (text : string) :
  drawn (export_report text)
  = map (slice_to 95)
      ("CONTRACT SUMMARY"
       :: map report_line (enumerate (split_clauses text)) ++ [""])
  /\ List.length (drawn (export_report text))
     = List.length (split_clauses text) + 2.
Proof.
  assert (E : drawn (export_report text)
              = map (slice_to 95)
                  ("CONTRACT SUMMARY"
                   :: map report_line (enumerate (split_clauses text))
                   ++ [""])).
  { unfold export_report.
    rewrite create_pdf_calls, drawn_app, drawn_calls_from, report_lines.
    apply app_nil_r. }
  rewrite E. split; [reflexivity|].
  rewrite length_map. cbn [List.length].
  rewrite length_app, length_map. unfold enumerate.
  rewrite <- (length_map snd), enumerate_from_snd. simpl. lia.
Qed.

(** ** Clauses inside the text *)

Section Inside.

Import Re.

Lemma occurs_in_refl (s : string) : occurs_in s s.
Proof. exists "", "". simpl. now rewrite append_nil_r. Qed.

Lemma occurs_in_trans (c p t : string) :
  occurs_in c p -> occurs_in p t -> occurs_in c t.
Proof.
  intros Hc (a & b & ->). now apply occurs_in_inside.
Qed.

(** With one separator less than pieces, every piece is part of the text put
    together, and the pieces together are not longer than it. *)
Lemma interleave_occurs (pieces seps : list string) (p : string) :
  List.length pieces = S (List.length seps) ->
  In p pieces -> occurs_in p (interleave pieces seps).
Proof.
  revert seps; induction pieces as [|p0 ps IH]; intros seps Hlen Hin;
    [contradiction|].
  destruct seps as [|sep seps].
  - destruct ps; [|discriminate]. destruct Hin as [<-|[]].
    apply occurs_in_refl.
  - cbn [interleave]. destruct Hin as [<-|Hin].
    + now exists "", (sep ++ interleave ps seps).
    + simpl in Hlen. injection Hlen as Hlen.
      destruct (IH seps Hlen Hin) as (a & b & ->).
      exists (p0 ++ sep ++ a), b. now rewrite !append_assoc.
Qed.

Lemma interleave_length (pieces seps : list string) :
  List.length pieces = S (List.length seps) ->
  list_sum (map String.length pieces)
  <= String.length (interleave pieces seps).
Proof.
  revert seps; induction pieces as [|p0 ps IH]; intros seps Hlen;
    [discriminate|].
  destruct seps as [|sep seps].
  - destruct ps; [|discriminate]. simpl. lia.
  - cbn [interleave]. simpl in Hlen. injection Hlen as Hlen.
    specialize (IH seps Hlen). rewrite !append_length.
    change (list_sum (map String.length (p0 :: ps)))
      with (String.length p0 + list_sum (map String.length ps)).
    lia.
Qed.

Lemma strip_length (p : string) : String.length (strip p) <= String.length p.
Proof.
  destruct (strip_spec p) as (a & b & E & _).
  rewrite E at 2. rewrite !append_length. lia.
Qed.

Lemma strip_occurs (p : string) : occurs_in (strip p) p.
Proof.
  destruct (strip_spec p) as (a & b & E & _). now exists a, b.
Qed.

Lemma kept_length (pieces : list string) :
  list_sum (map String.length
              (map strip
                 (filter (fun p => (40 <? String.length (strip p))%nat)
                    pieces)))
  <= list_sum (map String.length pieces).
Proof.
  induction pieces as [|p ps IH]; [reflexivity|]. cbn [filter].
  pose proof (strip_length p) as Hp.
  destruct (40 <? String.length (strip p))%nat; simpl; lia.
Qed.

Lemma clause_lengths (text : string) :
  list_sum (map String.length (split_clauses text)) <= String.length text.
Proof.
  destruct (split_decompose text) as (seps & Htext & Hlen & _).
  rewrite Htext at 2.
  etransitivity; [apply kept_length | now apply interleave_length].
Qed.

Lemma long_clauses (cs : list string) :
  Forall (fun c => 40 < String.length c) cs ->
  41 * List.length cs <= list_sum (map String.length cs).
Proof.
  induction 1 as [|c cs Hc _ IH]; simpl in *; lia.
Qed.

Lemma clause_count (text : string) :
  41 * List.length (split_clauses text) <= String.length text.
Proof.
  etransitivity; [apply long_clauses | apply clause_lengths].
  generalize (split_clauses_clean text). apply Forall_impl. tauto.
Qed.

Lemma clause_occurs (text c : string) :
  In c (split_clauses text) -> occurs_in c text.
Proof.
  unfold split_clauses. intros Hc.
  apply in_map_iff in Hc as (p & <- & Hp).
  apply filter_In in Hp as [Hp _].
  apply (occurs_in_trans _ p); [apply strip_occurs|].
  destruct (split_decompose text) as (seps & Htext & Hlen & _).
  rewrite Htext. now apply interleave_occurs.
Qed.

(** A text with no match of the pattern is one piece. *)
Lemma split_whole (x : string) : has_match x = false -> split x = [x].
Proof.
  induction x as [|c x IH]; [reflexivity|].
  rewrite has_match_unfold, split_cons.
  destruct (match_at (String c x)); [discriminate|].
  intros H. now rewrite (IH H).
Qed.

Lemma all_space_append (a b : string) :
  all_space (a ++ b) = all_space a && all_space b.
Proof.
  induction a as [|c a IH]; simpl; [reflexivity|].
  now rewrite IH, andb_assoc.
Qed.

End Inside.

(** X13. Every clause is a contiguous part of the text it was cut from. *)
Theorem clauses_are_substrings (text : string) :
  Forall (fun c => occurs_in c text) (split_clauses text).
Proof.
  apply Forall_forall. intros c. apply clause_occurs.
Qed.

(** X14. The clauses do not overlap: their lengths add up to at most the
    length of the text, so a text of n clauses has at least 41 n
    characters; a text of 40 characters or fewer has no clause, and the run
    shows nothing for it and rates it Low. *)
Theorem clauses_fit_in_text (text : string) :
  list_sum (map String.length (split_clauses text)) <= String.length text
  /\ 41 * List.length (split_clauses text) <= String.length text
  /\ (String.length text <= 40 -> analyze text = ([], "Low")).
Proof.
  split; [apply clause_lengths | split; [apply clause_count|]].
  intros Hshort. pose proof (clause_count text) as H.
  unfold analyze. destruct (split_clauses text) as [|c cs]; [reflexivity|].
  simpl in H. lia.
Qed.

(** X15. A text in which the pattern never matches (no blank-line boundary)
    is one clause at most: its trimmed form when that is longer than 40
    characters, and nothing otherwise. *)
Theorem text_without_boundary (text : string) :
  has_match text = false ->
  split_clauses text
  = if (40 <? String.length (strip text))%nat then [strip text] else [].
Proof.
  intros H. unfold split_clauses. rewrite (split_whole _ H). cbn [filter].
  now destruct (40 <? String.length (strip text))%nat.
Qed.

Lemma text_without_boundary_witness :
  has_match ("  The Supplier shall deliver the goods" ++ nl
             ++ "within thirty days of the order. ") = false
  /\ split_clauses ("  The Supplier shall deliver the goods" ++ nl
                    ++ "within thirty days of the order. ")
     = ["The Supplier shall deliver the goods" ++ nl
        ++ "within thirty days of the order."].
Proof.
  split; [reflexivity|].
  rewrite (text_without_boundary
             ("  The Supplier shall deliver the goods" ++ nl
              ++ "within thirty days of the order. ") eq_refl).
  reflexivity.
Defined.

(** X16. A text of white space only, however long, has no clause. *)
Theorem blank_text_has_no_clause (text : string) :
  all_space text = true -> split_clauses text = [].
Proof.
  intros Hblank. pose proof (split_clauses_clean text) as Hclean.
  pose proof (clause_occurs text) as Hocc.
  destruct (split_clauses text) as [|c cs]; [reflexivity|].
  inversion Hclean as [|? ? ((Hs & _) & _) _]; subst.
  destruct (Hocc c (or_introl eq_refl)) as (a & b & E).
  rewrite E, !all_space_append in Hblank.
  apply andb_true_iff in Hblank as [_ Hblank].
  apply andb_true_iff in Hblank as [Hc _].
  destruct c as [|ch c]; [discriminate|]. simpl in Hs, Hc.
  apply andb_true_iff in Hc as [Hch _]. now rewrite Hch in Hs.
Qed.

Lemma blank_text_has_no_clause_witness :
  all_space ("          " ++ nl ++ nl ++ "                    " ++ nl
             ++ "                    ") = true
  /\ split_clauses ("          " ++ nl ++ nl ++ "                    " ++ nl
                    ++ "                    ") = [].
Proof.
  split; [reflexivity|].
  apply (blank_text_has_no_clause
           ("          " ++ nl ++ nl ++ "                    " ++ nl
            ++ "                    ")).
  reflexivity.
Defined.
